(** * A debounced search box synchronised with the URL query string

    Shallow embedding of [src/app/ui/search.tsx]: the [Search] client
    component, its debounced [handleSearch] callback and the Web/Next.js
    objects it drives ([URLSearchParams], the router, the uncontrolled
    [<input>] element). *)

From Stdlib Require Import String Ascii List Bool ZArith Lia.
Import ListNotations.

Open Scope string_scope.
Open Scope list_scope.

(** ** URLSearchParams

    The Web API object is a list of name/value tuples: order is kept and a
    name may occur several times.  Strings are sequences of bytes (the UTF-8
    form the serializer works on). *)

Module URLSearchParams.

Definition t : Type := list (string * string).

(** [name] selects the tuples whose name is [name]. *)
Definition named (name : string) (p : string * string) : bool :=
  String.eqb (fst p) name.

(** [params.get(name)]: the value of the first tuple called [name], or
    [null]. *)
Fixpoint get (name : string) (l : t) : option string :=
  match l with
  | [] => None
  | (n, v) :: l' => if String.eqb n name then Some v else get name l'
  end.

(** [params.has(name)]. *)
Definition has (name : string) (l : t) : bool := existsb (named name) l.

(** [params.getAll(name)]. *)
Definition getAll (name : string) (l : t) : list string :=
  map snd (filter (named name) l).

(** [params.delete(name)]: removes every tuple called [name]. *)
Definition delete (name : string) (l : t) : t :=
  filter (fun p => negb (named name p)) l.

(** [params.append(name, value)]. *)
Definition append (name value : string) (l : t) : t := l ++ [(name, value)].

(** [params.set(name, value)]: if some tuple is called [name], the first
    such tuple takes [value] and the others are removed; otherwise a new
    tuple is appended. *)
Fixpoint set (name value : string) (l : t) : t :=
  match l with
  | [] => [(name, value)]
  | (n, v) :: l' =>
      if String.eqb n name then (n, value) :: delete name l'
      else (n, v) :: set name value l'
  end.

(** [new URLSearchParams(init)] from an existing parameter object: a copy
    of its tuples, in order. *)
Definition new (init : t) : t := map (fun p => (fst p, snd p)) init.

End URLSearchParams.

(** The query parameters of the current address, as [useSearchParams]
    returns them. *)
Definition QueryState : Type := URLSearchParams.t.

(** JavaScript truthiness of a string: every string but the empty one. *)
Definition truthy (s : string) : bool :=
  match s with
  | EmptyString => false
  | String _ _ => true
  end.

(** Lines 25-31 of [handleSearch]: the parameter object built by a commit,
    just before it is serialised. *)
Definition commit (searchParams : QueryState) (term : string) : QueryState :=
  let params := URLSearchParams.new searchParams in
  let params := URLSearchParams.set "page" "1" params in
  if truthy term
  then URLSearchParams.set "query" term params
  else URLSearchParams.delete "query" params.

(** ** The application/x-www-form-urlencoded format

    [params.toString()] and the parser that reads the query of an address
    back into tuples. *)

Module UrlEncoded.

Definition hex_digit (n : N) : ascii :=
  match String.get (N.to_nat n) "0123456789ABCDEF" with
  | Some c => c
  | None => "0"%char
  end.

Definition hex_value (c : ascii) : option N :=
  let n := N_of_ascii c in
  if (48 <=? n)%N && (n <=? 57)%N then Some (n - 48)%N
  else if (65 <=? n)%N && (n <=? 70)%N then Some (n - 55)%N
  else if (97 <=? n)%N && (n <=? 102)%N then Some (n - 87)%N
  else None.

(** Bytes outside the urlencoded percent-encode set: ASCII alphanumerics
    and [*], [-], [.], [_]. *)
Definition unreserved (c : ascii) : bool :=
  let n := N_of_ascii c in
  (n =? 42)%N || (n =? 45)%N || (n =? 46)%N || (n =? 95)%N
  || ((48 <=? n)%N && (n <=? 57)%N)
  || ((65 <=? n)%N && (n <=? 90)%N)
  || ((97 <=? n)%N && (n <=? 122)%N).

(** One byte of the serializer's output (space as plus). *)
Definition encode_byte (c : ascii) : string :=
  if Ascii.eqb c " " then "+"
  else if unreserved c then String c ""
  else
    let n := N_of_ascii c in
    String "%" (String (hex_digit (n / 16)) (String (hex_digit (n mod 16)) "")).

Fixpoint percent_encode (s : string) : string :=
  match s with
  | EmptyString => ""
  | String c s' => (encode_byte c ++ percent_encode s')%string
  end.

Definition serialize_tuple (p : string * string) : string :=
  (percent_encode (fst p) ++ "=" ++ percent_encode (snd p))%string.

(** [params.toString()]: the tuples as [name=value], joined by [&]. *)
Definition toString (l : URLSearchParams.t) : string :=
  String.concat "&" (map serialize_tuple l).

Fixpoint percent_decode (s : string) : string :=
  match s with
  | EmptyString => ""
  | String c s' =>
      if Ascii.eqb c "%" then
        match s' with
        | String a (String b s'') =>
            match hex_value a, hex_value b with
            | Some x, Some y =>
                String (ascii_of_N (16 * x + y)) (percent_decode s'')
            | _, _ => String c (percent_decode s')
            end
        | _ => String c (percent_decode s')
        end
      else String c (percent_decode s')
  end.

Fixpoint plus_to_space (s : string) : string :=
  match s with
  | EmptyString => ""
  | String c s' =>
      String (if Ascii.eqb c "+" then " "%char else c) (plus_to_space s')
  end.

(** [cut sep s]: the part of [s] before the first [sep], and the part
    after it when there is one. *)
Fixpoint cut (sep : ascii) (s : string) : string * option string :=
  match s with
  | EmptyString => ("", None)
  | String c s' =>
      if Ascii.eqb c sep then ("", Some s')
      else let (h, r) := cut sep s' in (String c h, r)
  end.

(** [split sep s]: the pieces of [s] between occurrences of [sep]. *)
Fixpoint split (sep : ascii) (s : string) : list string :=
  match s with
  | EmptyString => [""]
  | String c s' =>
      if Ascii.eqb c sep then "" :: split sep s'
      else
        match split sep s' with
        | h :: r => String c h :: r
        | [] => [String c ""]
        end
  end.

Definition decode (s : string) : string := percent_decode (plus_to_space s).

Definition parse_tuple (bytes : string) : string * string :=
  match cut "=" bytes with
  | (name, Some value) => (decode name, decode value)
  | (name, None) => (decode name, "")
  end.

(** The urlencoded parser: empty pieces are skipped. *)
Definition parse (input : string) : URLSearchParams.t :=
  map parse_tuple (filter truthy (split "&" input)).

End UrlEncoded.

(** ** The location and router collaborator *)

Module Router.

(** Modelled from the spec: the Location/Query-State collaborator of the
    external interfaces (Next.js navigation: [usePathname],
    [useSearchParams], [useRouter]), which is not part of the component's
    source.  An address is a path, then [?] and a query when there is one,
    then [#] and a fragment when there is one.  The session history is the
    current address and the entries behind it. *)
Record History : Type := mkHistory {
  current : string;
  back : list string
}.

Definition entries (h : History) : nat := S (length (back h)).

Definition strip_fragment (address : string) : string :=
  fst (UrlEncoded.cut "#" address).

(** The path of an address. *)
Definition path (address : string) : string :=
  fst (UrlEncoded.cut "?" (strip_fragment address)).

(** The query of an address, without its leading [?]. *)
Definition query (address : string) : string :=
  match snd (UrlEncoded.cut "?" (strip_fragment address)) with
  | Some q => q
  | None => ""
  end.

(** [usePathname()]. *)
Definition usePathname (h : History) : string := path (current h).

(** [useSearchParams()]. *)
Definition useSearchParams (h : History) : QueryState :=
  UrlEncoded.parse (query (current h)).

(** [replace(href)]: the current entry is overwritten. *)
Definition replace (href : string) (h : History) : History :=
  {| current := href; back := back h |}.

(** [push(href)]: a new entry is added on top of the current one. *)
Definition push (href : string) (h : History) : History :=
  {| current := href; back := current h :: back h |}.

End Router.

(** ** Effects of the callback *)

Inductive Effect : Type :=
| ConsoleLog (message : string)
| RouterReplace (href : string)
| RouterPush (href : string).

Definition perform (e : Effect) (h : Router.History) : Router.History :=
  match e with
  | ConsoleLog _ => h
  | RouterReplace href => Router.replace href h
  | RouterPush href => Router.push href h
  end.

Definition is_navigation (e : Effect) : bool :=
  match e with
  | ConsoleLog _ => false
  | RouterReplace _ | RouterPush _ => true
  end.

(** The function wrapped by [useDebouncedCallback] (lines 21-40), with the
    values [pathname] and [searchParams] of the enclosing render: the calls
    it makes, in order. *)
Definition handleSearch (pathname : string) (searchParams : QueryState)
    (term : string) : list Effect :=
  let params := commit searchParams term in
  [ ConsoleLog ("Searching... " ++ term)%string;
    RouterReplace (pathname ++ "?" ++ UrlEncoded.toString params)%string ].

(** ** The input element *)

Module Input.

(** The properties the component gives its [<input>]; [value] is the
    property of a controlled input, which [Search] never sets. *)
Record Props : Type := mkProps {
  className : string;
  placeholder : string;
  defaultValue : option string;
  value : option string
}.

(** The control keeps, besides its text, the flag the browser calls the
    dirty value flag: whether the text was set by an edit or by an
    assignment, instead of following the default value. *)
Record Element : Type := mkElement {
  props : Props;
  text : string;
  dirty : bool
}.

Definition or_empty (o : option string) : string :=
  match o with
  | Some s => s
  | None => ""
  end.

(** Modelled from the spec: the input control of the initial-state rule
    (React DOM's [<input>]), which is not part of the component's source.
    On mount the displayed text is seeded from [value], else from
    [defaultValue], else empty.  A non-empty seed is assigned to the
    element, which marks it dirty. *)
Definition mount (p : Props) : Element :=
  let initial := match value p with
                 | Some v => v
                 | None => or_empty (defaultValue p)
                 end in
  {| props := p; text := initial; dirty := truthy initial |}.

(** A later render, as React DOM and the browser treat it (not as the spec
    describes it): a [value] property overwrites the text (a controlled
    input); without one, the [defaultValue] of the render becomes the
    element's default, which a dirty element ignores and an element that
    is not dirty displays. *)
Definition render (p : Props) (e : Element) : Element :=
  match value p with
  | Some v => {| props := p; text := v; dirty := true |}
  | None =>
      {| props := p;
         text := if dirty e then text e else or_empty (defaultValue p);
         dirty := dirty e |}
  end.

(** The user edits the text. *)
Definition edit (rawText : string) (e : Element) : Element :=
  {| props := props e; text := rawText; dirty := true |}.

End Input.

(** The element [Search] returns (lines 46-53), for the [placeholder]
    property and the [searchParams] of the render. *)
Definition Search (placeholder : string) (searchParams : QueryState)
    : Input.Props :=
  {| Input.className :=
       "peer block w-full rounded-md border border-gray-200 py-[9px] pl-10 text-sm outline-2 placeholder:text-gray-500";
     Input.placeholder := placeholder;
     Input.defaultValue :=
       option_map (fun s => s) (URLSearchParams.get "query" searchParams);
     Input.value := None |}.

(** ** The debounce timer *)

Module Debounce.

(** Modelled from the spec: the debounce policy and its timer state
    machine ([useDebouncedCallback] of the use-debounce package), which is
    not part of the component's source.  One owned timer: idle, or
    pending with a deadline and the argument of the latest call. *)
Inductive Timer : Type :=
| Idle
| Pending (deadline : N) (term : string).

(** A call at time [now] cancels the pending timer and starts a new one
    that is due after [wait]. *)
Definition call (wait now : N) (term : string) (_ : Timer) : Timer :=
  Pending (now + wait) term.

(** The timer at time [now]: the argument to run the callback with when
    the deadline has passed, and the timer afterwards. *)
Definition expire (now : N) (t : Timer) : option (N * string) * Timer :=
  match t with
  | Idle => (None, Idle)
  | Pending deadline term =>
      if (deadline <=? now)%N then (Some (deadline, term), Idle)
      else (None, t)
  end.

End Debounce.

(** The quiescence window given to [useDebouncedCallback] (line 40). *)
Definition wait : N := 300.

(** ** The mounted component on its event loop *)

(** One run of the debounced callback: when it ran, with what argument, and
    the calls it made. *)
Record Invocation : Type := mkInvocation {
  at_time : N;
  term_of : string;
  calls : list Effect
}.

Record World : Type := mkWorld {
  clock : N;
  placeholder : string;
  history : Router.History;
  timer : Debounce.Timer;
  input : Input.Element;
  log : list Invocation
}.

(** The component renders with the parameters of the current address. *)
Definition view (placeholder : string) (h : Router.History) : Input.Props :=
  Search placeholder (Router.useSearchParams h).

Definition mount (placeholder : string) (h : Router.History) : World :=
  {| clock := 0;
     placeholder := placeholder;
     history := h;
     timer := Debounce.Idle;
     input := Input.mount (view placeholder h);
     log := [] |}.

(** The wrapped function runs with the path and parameters of the latest
    render; the address change renders the component again. *)
Definition fire (now : N) (w : World) : World :=
  match Debounce.expire now (timer w) with
  | (Some (due, term), t) =>
      let effects :=
        handleSearch (Router.usePathname (history w))
                     (Router.useSearchParams (history w)) term in
      let h := fold_left (fun h e => perform e h) effects (history w) in
      {| clock := now;
         placeholder := placeholder w;
         history := h;
         timer := t;
         input := Input.render (view (placeholder w) h) (input w);
         log := log w ++ [mkInvocation due term effects] |}
  | (None, t) =>
      {| clock := now;
         placeholder := placeholder w;
         history := history w;
         timer := t;
         input := input w;
         log := log w |}
  end.

(** [delay] time units pass. *)
Definition elapse (delay : N) (w : World) : World :=
  fire (clock w + delay) w.

(** The [onChange] handler (lines 49-51) with [e.target.value = rawText]:
    the control shows the text and the debounced callback is called. *)
Definition onInputChange (rawText : string) (w : World) : World :=
  {| clock := clock w;
     placeholder := placeholder w;
     history := history w;
     timer := Debounce.call wait (clock w) rawText (timer w);
     input := Input.edit rawText (input w);
     log := log w |}.

(** The address changes from outside the component. *)
Definition navigate (href : string) (w : World) : World :=
  let h := Router.push href (history w) in
  {| clock := clock w;
     placeholder := placeholder w;
     history := h;
     timer := timer w;
     input := Input.render (view (placeholder w) h) (input w);
     log := log w |}.

Inductive Event : Type :=
| Keystroke (delay : N) (rawText : string)
| Navigate (delay : N) (href : string)
| Pause (delay : N).

Definition step (w : World) (e : Event) : World :=
  match e with
  | Keystroke delay rawText => onInputChange rawText (elapse delay w)
  | Navigate delay href => navigate href (elapse delay w)
  | Pause delay => elapse delay w
  end.

Definition run (events : list Event) (w : World) : World :=
  fold_left step events w.

(** The text typed last in [events], or [initial] when none was typed. *)
Definition last_typed (events : list Event) (initial : string) : string :=
  fold_left (fun s e => match e with
                        | Keystroke _ rawText => rawText
                        | _ => s
                        end) events initial.

Definition keystrokes (l : list (N * string)) : list Event :=
  map (fun p => Keystroke (fst p) (snd p)) l.

(** ** JavaScript strings and the binding of URLSearchParams

    A JavaScript string, such as [e.target.value] and the argument of
    [handleSearch], is a sequence of 16-bit code units, in which a
    surrogate may stand without its partner.  The methods of
    [URLSearchParams] take scalar value strings: before a method runs,
    the binding replaces every surrogate that is not part of a pair by
    U+FFFD.  The definitions above work on the converted strings, in
    their UTF-8 form; the ones below show the conversion itself, on code
    units. *)

Module JS.

(** A code unit: its high byte and its low byte. *)
Definition code_unit : Type := (ascii * ascii)%type.

Definition t : Type := list code_unit.

Definition unit_eqb (u v : code_unit) : bool :=
  Ascii.eqb (fst u) (fst v) && Ascii.eqb (snd u) (snd v).

Fixpoint eqb (s1 s2 : t) : bool :=
  match s1, s2 with
  | [], [] => true
  | u :: s1', v :: s2' => unit_eqb u v && eqb s1' s2'
  | _, _ => false
  end.

(** A string literal of the source, all ASCII. *)
Definition literal (s : string) : t :=
  map (fun c => (zero, c)) (list_ascii_of_string s).

(** Truthiness: every string but the empty one. *)
Definition truthy (s : t) : bool :=
  match s with
  | [] => false
  | _ :: _ => true
  end.

(** Leading surrogates are D800-DBFF, trailing ones DC00-DFFF. *)
Definition lead (u : code_unit) : bool :=
  let h := N_of_ascii (fst u) in (216 <=? h)%N && (h <=? 219)%N.

Definition trail (u : code_unit) : bool :=
  let h := N_of_ascii (fst u) in (220 <=? h)%N && (h <=? 223)%N.

(** U+FFFD. *)
Definition replacement : code_unit := (ascii_of_N 255, ascii_of_N 253).

(** The conversion to a scalar value string. *)
Fixpoint toUSV (s : t) : t :=
  match s with
  | [] => []
  | u :: s' =>
      if lead u then
        match s' with
        | v :: s'' =>
            if trail v then u :: v :: toUSV s''
            else replacement :: toUSV s'
        | [] => [replacement]
        end
      else if trail u then replacement :: toUSV s'
      else u :: toUSV s'
  end.

(** No surrogate stands alone. *)
Fixpoint well_formed (s : t) : bool :=
  match s with
  | [] => true
  | u :: s' =>
      if lead u then
        match s' with
        | v :: s'' => trail v && well_formed s''
        | [] => false
        end
      else negb (trail u) && well_formed s'
  end.

End JS.

(** The parameter object as the script sees it: tuples of scalar value
    strings, and methods that convert their arguments. *)
Module ScriptParams.

Definition t : Type := list (JS.t * JS.t).

Definition named (name : JS.t) (p : JS.t * JS.t) : bool := JS.eqb (fst p) name.

Fixpoint first (name : JS.t) (l : t) : option JS.t :=
  match l with
  | [] => None
  | (n, v) :: l' => if JS.eqb n name then Some v else first name l'
  end.

Definition without (name : JS.t) (l : t) : t :=
  filter (fun p => negb (named name p)) l.

Fixpoint put (name value : JS.t) (l : t) : t :=
  match l with
  | [] => [(name, value)]
  | (n, v) :: l' =>
      if JS.eqb n name then (n, value) :: without name l'
      else (n, v) :: put name value l'
  end.

(** [params.get(name)]. *)
Definition get (name : JS.t) (l : t) : option JS.t := first (JS.toUSV name) l.

(** [params.has(name)]. *)
Definition has (name : JS.t) (l : t) : bool :=
  existsb (named (JS.toUSV name)) l.

(** [params.getAll(name)]. *)
Definition getAll (name : JS.t) (l : t) : list JS.t :=
  map snd (filter (named (JS.toUSV name)) l).

(** [params.delete(name)]. *)
Definition delete (name : JS.t) (l : t) : t := without (JS.toUSV name) l.

(** [params.set(name, value)]. *)
Definition set (name value : JS.t) (l : t) : t :=
  put (JS.toUSV name) (JS.toUSV value) l.

(** [new URLSearchParams(init)] from an existing parameter object. *)
Definition new (init : t) : t := map (fun p => (fst p, snd p)) init.

End ScriptParams.

(** Lines 25-31 of [handleSearch] on the strings of the script: [term] is
    the JavaScript string the callback is called with. *)
Definition commit_script (searchParams : ScriptParams.t) (term : JS.t)
    : ScriptParams.t :=
  let params := ScriptParams.new searchParams in
  let params := ScriptParams.set (JS.literal "page") (JS.literal "1") params in
  if JS.truthy term
  then ScriptParams.set (JS.literal "query") term params
  else ScriptParams.delete (JS.literal "query") params.

(** ** Predicates used in the statements *)

(** Every byte of [s] satisfies [f]. *)
Fixpoint all_bytes (f : ascii -> bool) (s : string) : bool :=
  match s with
  | EmptyString => true
  | String c s' => f c && all_bytes f s'
  end.

Definition differs (sep : ascii) (c : ascii) : bool := negb (Ascii.eqb c sep).

(** A path as [usePathname] returns it: it holds neither [?] nor [#]. *)
Definition is_path (pathname : string) : bool :=
  all_bytes (fun c => differs "?" c && differs "#" c) pathname.

(** The bytes the serializer can write for a name or a value. *)
Definition encoded_byte (c : ascii) : bool :=
  UrlEncoded.unreserved c || Ascii.eqb c "+" || Ascii.eqb c "%".

(** The parameters of the current address of a world. *)
Definition queryState (w : World) : QueryState :=
  Router.useSearchParams (history w).

(** The calls made by the latest run of the wrapped function. *)
Definition latest_calls (w : World) : option (list Effect) :=
  option_map calls (last (map Some (log w)) None).

(** The times at which the wrapped function ran, oldest first. *)
Definition commit_times (w : World) : list N := map at_time (log w).

(** Any two times of [l], in order, are at least [gap] apart. *)
Fixpoint spaced (gap : N) (l : list N) : Prop :=
  match l with
  | [] => True
  | t :: l' => Forall (fun u => (t + gap <= u)%N) l' /\ spaced gap l'
  end.

(** The invariant behind the spacing of commits: earlier runs are spaced,
    none lies in the future, and a pending deadline is at least the window
    after each of them and at most the window ahead. *)
Definition settled (w : World) : Prop :=
  spaced wait (commit_times w) /\
  Forall (fun t => (t <= clock w)%N) (commit_times w) /\
  match timer w with
  | Debounce.Idle => True
  | Debounce.Pending deadline _ =>
      Forall (fun t => (t + wait <= deadline)%N) (commit_times w) /\
      (deadline <= clock w + wait)%N
  end.

(** The parameters are empty or those of a commit on the empty
    QueryState. *)
Definition from_empty (w : World) : Prop :=
  queryState w = [] \/ exists t, queryState w = commit [] t.

(** The addresses the calls ask the router to show, in order. *)
Definition hrefs (effects : list Effect) : list string :=
  flat_map (fun e => match e with
                     | ConsoleLog _ => []
                     | RouterReplace href | RouterPush href => [href]
                     end) effects.

(** The bytes of a serialized parameter list: those of names and values,
    and the two separators. *)
Definition query_byte (c : ascii) : bool :=
  encoded_byte c || Ascii.eqb c "=" || Ascii.eqb c "&".

(** The texts of the keystrokes among [events], in order. *)
Definition typed_texts (events : list Event) : list string :=
  flat_map (fun e => match e with
                     | Keystroke _ rawText => [rawText]
                     | _ => []
                     end) events.

(** The number of navigations from outside among [events]. *)
Definition navigations (events : list Event) : nat :=
  length (filter (fun e => match e with
                           | Navigate _ _ => true
                           | _ => false
                           end) events).

(** One when a call of the debounced callback is waiting, else zero. *)
Definition waiting (t : Debounce.Timer) : nat :=
  match t with
  | Debounce.Idle => 0
  | Debounce.Pending _ _ => 1
  end.

(** Two worlds that differ at most in the placeholder and in the
    properties last given to the input. *)
Definition same_behaviour (w1 w2 : World) : Prop :=
  clock w1 = clock w2 /\
  history w1 = history w2 /\
  timer w1 = timer w2 /\
  log w1 = log w2 /\
  Input.text (input w1) = Input.text (input w2) /\
  Input.dirty (input w1) = Input.dirty (input w2).

(** The tuples a commit is not about: those named neither [page] nor
    [query]. *)
Definition others (p : string * string) : bool :=
  negb (URLSearchParams.named "page" p) && negb (URLSearchParams.named "query" p).

(** * Properties *)

(** ** Parameter lists *)

Section ParamsFacts.

Import URLSearchParams.

Lemma named_spec name n v : named name (n, v) = true <-> n = name.
Proof. unfold named; simpl. apply String.eqb_eq. Qed.

Lemma new_copy (l : t) : new l = l.
Proof.
  unfold new. induction l as [|[n v] l IH]; simpl; [reflexivity|].
  now rewrite IH.
Qed.

Lemma get_getAll name (l : t) : get name l = hd_error (getAll name l).
Proof.
  unfold getAll, named. induction l as [|[n v] l IH]; simpl; [reflexivity|].
  destruct (String.eqb n name); simpl; auto.
Qed.

Lemma has_getAll name (l : t) :
  has name l = match getAll name l with [] => false | _ :: _ => true end.
Proof.
  unfold has, getAll. induction l as [|p l IH]; simpl; [reflexivity|].
  destruct (named name p); simpl; auto.
Qed.

(** A filter that rejects every tuple called [name] does not see what
    [set name] and [delete name] do. *)
Lemma filter_delete (f : string * string -> bool) name (l : t) :
  (forall p, named name p = true -> f p = false) ->
  filter f (delete name l) = filter f l.
Proof.
  intros Hf. unfold delete. induction l as [|p l IH]; simpl; [reflexivity|].
  destruct (named name p) eqn:E; simpl.
  - rewrite (Hf p E). exact IH.
  - rewrite IH. reflexivity.
Qed.

Lemma filter_set (f : string * string -> bool) name v (l : t) :
  (forall p, named name p = true -> f p = false) ->
  filter f (set name v l) = filter f l.
Proof.
  intros Hf. induction l as [|[n0 v0] l IH]; simpl.
  - rewrite Hf; [reflexivity|]. apply named_spec; reflexivity.
  - destruct (String.eqb n0 name) eqn:E; simpl.
    + rewrite !Hf by (unfold named; simpl; exact E).
      apply filter_delete, Hf.
    + rewrite IH. reflexivity.
Qed.

Lemma named_other name name' p :
  name' <> name -> named name p = true -> named name' p = false.
Proof.
  destruct p as [n v]. intros Hne H. apply named_spec in H. subst n.
  unfold named; simpl. apply String.eqb_neq. congruence.
Qed.

Lemma getAll_delete_same name (l : t) : getAll name (delete name l) = [].
Proof.
  unfold getAll, delete. induction l as [|p l IH]; simpl; [reflexivity|].
  destruct (named name p) eqn:E; simpl; [exact IH|].
  rewrite E. exact IH.
Qed.

Lemma getAll_delete_other name name' (l : t) :
  name' <> name -> getAll name' (delete name l) = getAll name' l.
Proof.
  intros Hne. unfold getAll. f_equal.
  apply filter_delete. intros p. now apply named_other.
Qed.

Lemma getAll_set_same name v (l : t) : getAll name (set name v l) = [v].
Proof.
  induction l as [|[n0 v0] l IH].
  - unfold getAll, named; simpl. now rewrite String.eqb_refl.
  - simpl. destruct (String.eqb n0 name) eqn:E.
    + change (getAll name ((n0, v) :: delete name l))
        with (map snd (filter (named name) ((n0, v) :: delete name l))).
      simpl. unfold named at 1; simpl. rewrite E. simpl.
      f_equal. apply getAll_delete_same.
    + unfold getAll in *. simpl. unfold named at 1; simpl. rewrite E.
      exact IH.
Qed.

Lemma getAll_set_other name name' v (l : t) :
  name' <> name -> getAll name' (set name v l) = getAll name' l.
Proof.
  intros Hne. unfold getAll. f_equal.
  apply filter_set. intros p. now apply named_other.
Qed.

Lemma delete_absent name (l : t) : getAll name l = [] -> delete name l = l.
Proof.
  unfold getAll, delete. induction l as [|p l IH]; simpl; [reflexivity|].
  destruct (named name p); simpl; [discriminate|].
  intros H. now rewrite IH.
Qed.

Lemma set_present name v (l : t) : getAll name l = [v] -> set name v l = l.
Proof.
  induction l as [|[n0 v0] l IH]; [discriminate|].
  unfold getAll; simpl. unfold named at 1; simpl.
  destruct (String.eqb n0 name) eqn:E; simpl.
  - intros H. injection H as -> H. now rewrite (delete_absent name l).
  - intros H. now rewrite IH.
Qed.

(** The parameter object of a commit, with the copy removed. *)
Lemma commit_unfold (searchParams : QueryState) term :
  commit searchParams term =
  if truthy term
  then set "query" term (set "page" "1" searchParams)
  else delete "query" (set "page" "1" searchParams).
Proof. unfold commit. now rewrite new_copy. Qed.

Lemma getAll_commit_page (searchParams : QueryState) term :
  getAll "page" (commit searchParams term) = ["1"].
Proof.
  rewrite commit_unfold. destruct (truthy term).
  - rewrite getAll_set_other by discriminate. apply getAll_set_same.
  - rewrite getAll_delete_other by discriminate. apply getAll_set_same.
Qed.

Lemma getAll_commit_query (searchParams : QueryState) term :
  getAll "query" (commit searchParams term) =
  if truthy term then [term] else [].
Proof.
  rewrite commit_unfold. destruct (truthy term).
  - apply getAll_set_same.
  - apply getAll_delete_same.
Qed.

Lemma filter_commit (f : string * string -> bool)
    (searchParams : QueryState) term :
  (forall p, named "page" p = true -> f p = false) ->
  (forall p, named "query" p = true -> f p = false) ->
  filter f (commit searchParams term) = filter f searchParams.
Proof.
  intros Hp Hq. rewrite commit_unfold. destruct (truthy term).
  - rewrite filter_set by exact Hq. now apply filter_set.
  - rewrite filter_delete by exact Hq. now apply filter_set.
Qed.

End ParamsFacts.

(** ** What a commit does to the parameters *)

(** C2: for every term and every prior QueryState, whatever [page] was or
    was not before, the parameters produced by a commit have [page] equal
    to ["1"], in a single [page] tuple. *)
Theorem commit_page (searchParams : QueryState) (term : string) :
  URLSearchParams.get "page" (commit searchParams term) = Some "1" /\
  URLSearchParams.getAll "page" (commit searchParams term) = ["1"].
Proof.
  rewrite get_getAll, getAll_commit_page. split; reflexivity.
Qed.

(** C4: a commit leaves every parameter other than [page] and [query] as it
    was: such a name is present afterwards exactly when it was present
    before, with the same value (the same values, in the same order, when
    it occurs several times). *)
Theorem commit_frame (searchParams : QueryState) (term name : string) :
  name <> "page" -> name <> "query" ->
  URLSearchParams.has name (commit searchParams term)
    = URLSearchParams.has name searchParams /\
  URLSearchParams.get name (commit searchParams term)
    = URLSearchParams.get name searchParams /\
  URLSearchParams.getAll name (commit searchParams term)
    = URLSearchParams.getAll name searchParams.
Proof.
  intros Hp Hq.
  assert (H : URLSearchParams.getAll name (commit searchParams term)
              = URLSearchParams.getAll name searchParams).
  { unfold URLSearchParams.getAll. f_equal.
    apply filter_commit; intros p; now apply named_other. }
  rewrite !has_getAll, !get_getAll, H. repeat split.
Qed.

Lemma commit_frame_witness :
  URLSearchParams.get "sort"
    (commit [("sort", "asc"); ("page", "7"); ("query", "old")] "lee")
  = Some "asc" /\
  URLSearchParams.has "status"
    (commit [("sort", "asc"); ("page", "7"); ("query", "old")] "") = false.
Proof.
  split.
  - apply (commit_frame [("sort", "asc"); ("page", "7"); ("query", "old")]
             "lee" "sort"); discriminate.
  - apply (commit_frame [("sort", "asc"); ("page", "7"); ("query", "old")]
             "" "status"); discriminate.
Defined.

(** C8: committing the same term twice in succession gives the parameters
    that committing it once gives. *)
Theorem commit_idempotent (searchParams : QueryState) (term : string) :
  commit (commit searchParams term) term = commit searchParams term.
Proof.
  rewrite (commit_unfold (commit searchParams term)).
  rewrite (set_present "page" "1")
    by apply getAll_commit_page.
  pose proof (getAll_commit_query searchParams term) as Hq.
  destruct (truthy term).
  - now apply set_present.
  - now apply delete_absent.
Qed.

(** ** The serialized query *)

Section EncodingFacts.

Import UrlEncoded.

Lemma all_bytes_app f s1 s2 :
  all_bytes f (s1 ++ s2)%string = all_bytes f s1 && all_bytes f s2.
Proof.
  induction s1 as [|c s1 IH]; simpl; [reflexivity|].
  now rewrite IH, andb_assoc.
Qed.

Lemma all_bytes_weaken (f g : ascii -> bool) s :
  (forall c, f c = true -> g c = true) ->
  all_bytes f s = true -> all_bytes g s = true.
Proof.
  intros Hfg. induction s as [|c s IH]; simpl; [reflexivity|].
  intros H. apply andb_true_iff in H as [Hc Hs].
  now rewrite (Hfg c Hc), IH.
Qed.

Lemma cut_none sep s :
  all_bytes (differs sep) s = true -> cut sep s = (s, None).
Proof.
  induction s as [|c s IH]; simpl; [reflexivity|].
  unfold differs at 1. destruct (Ascii.eqb c sep); simpl; [discriminate|].
  intros H. now rewrite IH.
Qed.

Lemma cut_app sep s r :
  all_bytes (differs sep) s = true ->
  cut sep (s ++ String sep r)%string = (s, Some r).
Proof.
  induction s as [|c s IH]; simpl.
  - now rewrite Ascii.eqb_refl.
  - unfold differs at 1. destruct (Ascii.eqb c sep); simpl; [discriminate|].
    intros H. now rewrite IH.
Qed.

Lemma split_none sep s :
  all_bytes (differs sep) s = true -> split sep s = [s].
Proof.
  induction s as [|c s IH]; simpl; [reflexivity|].
  unfold differs at 1. destruct (Ascii.eqb c sep); simpl; [discriminate|].
  intros H. now rewrite IH.
Qed.

Lemma split_app sep s r :
  all_bytes (differs sep) s = true ->
  split sep (s ++ String sep r)%string = s :: split sep r.
Proof.
  induction s as [|c s IH]; simpl.
  - now rewrite Ascii.eqb_refl.
  - unfold differs at 1. destruct (Ascii.eqb c sep); simpl; [discriminate|].
    intros H. now rewrite IH.
Qed.

Lemma encode_byte_encoded c : all_bytes encoded_byte (encode_byte c) = true.
Proof. destruct c as [[] [] [] [] [] [] [] []]; reflexivity. Qed.

Lemma percent_encode_encoded s :
  all_bytes encoded_byte (percent_encode s) = true.
Proof.
  induction s as [|c s IH]; simpl; [reflexivity|].
  now rewrite all_bytes_app, encode_byte_encoded, IH.
Qed.

Lemma decode_encode_byte c r :
  decode (encode_byte c ++ r) = String c (decode r).
Proof. destruct c as [[] [] [] [] [] [] [] []]; reflexivity. Qed.

Lemma decode_percent_encode s : decode (percent_encode s) = s.
Proof.
  induction s as [|c s IH]; simpl; [reflexivity|].
  now rewrite decode_encode_byte, IH.
Qed.

End EncodingFacts.

Section RoundTrip.

Import UrlEncoded.

Lemma encoded_differs sep :
  encoded_byte sep = false ->
  forall c, encoded_byte c = true -> differs sep c = true.
Proof.
  intros Hsep c Hc. unfold differs.
  destruct (Ascii.eqb c sep) eqn:E; [|reflexivity].
  apply Ascii.eqb_eq in E. congruence.
Qed.

Lemma percent_encode_differs sep s :
  encoded_byte sep = false ->
  all_bytes (differs sep) (percent_encode s) = true.
Proof.
  intros Hsep. apply all_bytes_weaken with (f := encoded_byte).
  - now apply encoded_differs.
  - apply percent_encode_encoded.
Qed.

Lemma serialize_tuple_differs sep p :
  encoded_byte sep = false -> differs sep "=" = true ->
  all_bytes (differs sep) (serialize_tuple p) = true.
Proof.
  intros Hsep Heq. unfold serialize_tuple.
  rewrite all_bytes_app. simpl. rewrite Heq.
  now rewrite !percent_encode_differs.
Qed.

Lemma toString_differs sep (l : URLSearchParams.t) :
  encoded_byte sep = false -> differs sep "=" = true ->
  differs sep "&" = true ->
  all_bytes (differs sep) (toString l) = true.
Proof.
  intros Hsep Heq Hamp. unfold toString.
  induction l as [|p l IH]; [reflexivity|].
  simpl. destruct (map serialize_tuple l) as [|q m] eqn:E.
  - now apply serialize_tuple_differs.
  - rewrite all_bytes_app. simpl. rewrite Hamp.
    rewrite serialize_tuple_differs by assumption.
    exact IH.
Qed.

Lemma serialize_tuple_truthy p : truthy (serialize_tuple p) = true.
Proof.
  unfold serialize_tuple. destruct (percent_encode (fst p)); reflexivity.
Qed.

Lemma parse_serialize_tuple p : parse_tuple (serialize_tuple p) = p.
Proof.
  destruct p as [n v]. unfold parse_tuple, serialize_tuple. simpl.
  rewrite cut_app by (now apply percent_encode_differs).
  now rewrite !decode_percent_encode.
Qed.

Lemma split_toString p (l : URLSearchParams.t) :
  split "&" (toString (p :: l)) = map serialize_tuple (p :: l).
Proof.
  revert p. unfold toString.
  induction l as [|q l IH]; intros p.
  - simpl. apply split_none. now apply serialize_tuple_differs.
  - change (String.concat "&" (map serialize_tuple (p :: q :: l)))
      with (serialize_tuple p
            ++ String "&" (String.concat "&" (map serialize_tuple (q :: l))))%string.
    rewrite split_app by (now apply serialize_tuple_differs).
    rewrite IH. reflexivity.
Qed.

(** Reading a serialized parameter list gives the list back. *)
Lemma parse_toString (l : URLSearchParams.t) : parse (toString l) = l.
Proof.
  destruct l as [|p l]; [reflexivity|].
  unfold parse. rewrite split_toString.
  generalize (p :: l). clear. intros l.
  induction l as [|p l IH]; [reflexivity|].
  simpl. rewrite serialize_tuple_truthy. simpl.
  now rewrite parse_serialize_tuple, IH.
Qed.

(** The address a commit asks for splits back into the path and the
    parameters it was built from. *)
Lemma path_of_address pathname (l : URLSearchParams.t) :
  is_path pathname = true ->
  Router.path (pathname ++ "?" ++ toString l)%string = pathname.
Proof.
  intros Hp. unfold Router.path, Router.strip_fragment.
  rewrite (cut_none "#").
  - simpl. rewrite cut_app; [reflexivity|].
    revert Hp. apply all_bytes_weaken.
    intros c H. now apply andb_true_iff in H.
  - rewrite all_bytes_app. simpl.
    rewrite toString_differs by reflexivity.
    rewrite andb_true_r.
    revert Hp. apply all_bytes_weaken.
    intros c H. now apply andb_true_iff in H.
Qed.

Lemma query_of_address pathname (l : URLSearchParams.t) :
  is_path pathname = true ->
  Router.query (pathname ++ "?" ++ toString l)%string = toString l.
Proof.
  intros Hp. unfold Router.query, Router.strip_fragment.
  rewrite (cut_none "#").
  - simpl. rewrite cut_app; [reflexivity|].
    revert Hp. apply all_bytes_weaken.
    intros c H. now apply andb_true_iff in H.
  - rewrite all_bytes_app. simpl.
    rewrite toString_differs by reflexivity.
    rewrite andb_true_r.
    revert Hp. apply all_bytes_weaken.
    intros c H. now apply andb_true_iff in H.
Qed.

End RoundTrip.

(** ** The router *)

Section RouterFacts.

Import UrlEncoded.

Lemma cut_fst_all (f : ascii -> bool) sep s :
  all_bytes f s = true -> all_bytes f (fst (cut sep s)) = true.
Proof.
  induction s as [|c s IH]; simpl; [reflexivity|].
  intros H. apply andb_true_iff in H as [Hc Hs].
  destruct (Ascii.eqb c sep); [reflexivity|].
  destruct (cut sep s) as [h r]. simpl in *. now rewrite Hc, IH.
Qed.

Lemma cut_fst_differs sep s : all_bytes (differs sep) (fst (cut sep s)) = true.
Proof.
  induction s as [|c s IH]; simpl; [reflexivity|].
  destruct (Ascii.eqb c sep) eqn:E; [reflexivity|].
  destruct (cut sep s) as [h r]. simpl in *.
  unfold differs at 1. now rewrite E, IH.
Qed.

Lemma all_bytes_and (f g : ascii -> bool) s :
  all_bytes (fun c => f c && g c) s = all_bytes f s && all_bytes g s.
Proof.
  induction s as [|c s IH]; simpl; [reflexivity|].
  rewrite IH. destruct (f c), (g c), (all_bytes f s); reflexivity.
Qed.

(** What [usePathname] returns is a path. *)
Lemma path_is_path address : is_path (Router.path address) = true.
Proof.
  unfold is_path, Router.path, Router.strip_fragment.
  rewrite all_bytes_and, cut_fst_differs. simpl.
  apply cut_fst_all, cut_fst_differs.
Qed.

(** The history after the calls of one run of [handleSearch]. *)
Lemma perform_handleSearch pathname searchParams term (h : Router.History) :
  fold_left (fun h e => perform e h)
            (handleSearch pathname searchParams term) h
  = Router.replace
      (pathname ++ "?" ++ toString (commit searchParams term))%string h.
Proof. reflexivity. Qed.

End RouterFacts.

(** ** The event loop *)

Section LoopFacts.

(** A timer that is not due leaves everything but the clock. *)
Lemma fire_idle now w :
  timer w = Debounce.Idle ->
  fire now w = mkWorld now (placeholder w) (history w) Debounce.Idle
                       (input w) (log w).
Proof. intros H. unfold fire. now rewrite H. Qed.

Lemma fire_early now w deadline term :
  timer w = Debounce.Pending deadline term -> (now < deadline)%N ->
  fire now w = mkWorld now (placeholder w) (history w)
                       (Debounce.Pending deadline term) (input w) (log w).
Proof.
  intros H Hlt. unfold fire. rewrite H. simpl.
  now rewrite (proj2 (N.leb_gt deadline now) Hlt).
Qed.

(** A timer that is due runs the wrapped function once. *)
Lemma fire_due now w deadline term :
  timer w = Debounce.Pending deadline term -> (deadline <= now)%N ->
  let effects := handleSearch (Router.usePathname (history w))
                              (queryState w) term in
  let h := Router.replace
             (Router.usePathname (history w) ++ "?"
              ++ UrlEncoded.toString (commit (queryState w) term))%string
             (history w) in
  fire now w = mkWorld now (placeholder w) h Debounce.Idle
                 (Input.render (view (placeholder w) h) (input w))
                 (log w ++ [mkInvocation deadline term effects]).
Proof.
  intros H Hle. unfold fire. rewrite H. simpl.
  now rewrite (proj2 (N.leb_le deadline now) Hle).
Qed.

(** The parameters and the path read back from the address of a commit. *)
Lemma replace_queryState (h : Router.History) params :
  Router.useSearchParams
    (Router.replace
       (Router.usePathname h ++ "?" ++ UrlEncoded.toString params)%string h)
  = params.
Proof.
  unfold Router.useSearchParams, Router.replace, Router.usePathname.
  cbn [Router.current].
  rewrite query_of_address by apply path_is_path.
  apply parse_toString.
Qed.

Lemma replace_pathname (h : Router.History) params :
  Router.usePathname
    (Router.replace
       (Router.usePathname h ++ "?" ++ UrlEncoded.toString params)%string h)
  = Router.usePathname h.
Proof.
  unfold Router.replace, Router.usePathname. cbn [Router.current].
  apply path_of_address, path_is_path.
Qed.

Lemma queryState_fire now w :
  queryState (fire now w) =
  match timer w with
  | Debounce.Pending deadline term =>
      if (deadline <=? now)%N then commit (queryState w) term
      else queryState w
  | Debounce.Idle => queryState w
  end.
Proof.
  destruct (timer w) as [|deadline term] eqn:Ht.
  - now rewrite fire_idle.
  - destruct (deadline <=? now)%N eqn:E.
    + apply N.leb_le in E. rewrite (fire_due now w deadline term Ht E).
      unfold queryState at 1. simpl. apply replace_queryState.
    + apply N.leb_gt in E. now rewrite (fire_early now w deadline term Ht E).
Qed.

End LoopFacts.

(** ** What a commit asks of the router *)

Lemma latest_calls_snoc (w : World) l inv :
  log w = l ++ [inv] -> latest_calls w = Some (calls inv).
Proof.
  intros H. unfold latest_calls. rewrite H, map_app. simpl.
  now rewrite last_last.
Qed.

(** C7: a commit changes the address by one call to the router's [replace]
    (no [push]), on the current path followed by [?] and the serialized
    new parameters; the address then has the same path as before, and the
    session history has as many entries as before. *)
Theorem commit_replaces (w : World) (now deadline : N) (term : string) :
  timer w = Debounce.Pending deadline term -> (deadline <= now)%N ->
  let address :=
    (Router.usePathname (history w) ++ "?"
     ++ UrlEncoded.toString (commit (queryState w) term))%string in
  let w' := fire now w in
  latest_calls w'
    = Some (handleSearch (Router.usePathname (history w)) (queryState w) term) /\
  filter is_navigation
    (handleSearch (Router.usePathname (history w)) (queryState w) term)
    = [RouterReplace address] /\
  Router.current (history w') = address /\
  Router.usePathname (history w') = Router.usePathname (history w) /\
  Router.back (history w') = Router.back (history w) /\
  Router.entries (history w') = Router.entries (history w).
Proof.
  intros Ht Hle address w'. subst w'.
  pose proof (fire_due now w deadline term Ht Hle) as E. cbv zeta in E.
  split; [|split; [|split; [|split; [|split]]]].
  - rewrite (latest_calls_snoc (fire now w) (log w)
               (mkInvocation deadline term
                  (handleSearch (Router.usePathname (history w))
                                (queryState w) term)))
      by now rewrite E.
    reflexivity.
  - reflexivity.
  - now rewrite E.
  - rewrite E. cbn [history]. apply replace_pathname.
  - now rewrite E.
  - now rewrite E.
Qed.

Lemma commit_replaces_witness :
  let w := onInputChange "lee"
             (mount "Search invoices..."
                    (Router.mkHistory "/dashboard/invoices?page=4" ["/dashboard"])) in
  Router.current (history (fire 300 w))
    = "/dashboard/invoices?page=1&query=lee" /\
  Router.entries (history (fire 300 w)) = 2%nat.
Proof.
  intros w.
  destruct (commit_replaces w 300 300 "lee" eq_refl (N.le_refl 300))
    as (_ & _ & Hc & _ & _ & He).
  split; [exact Hc | exact He].
Defined.

(** ** The displayed text *)

(** C9: mounted on an address without a [query] parameter, the component
    gives the input no default value and the input shows the empty
    string. *)
Theorem input_empty_without_query (placeholder : string) (h : Router.History) :
  URLSearchParams.get "query" (Router.useSearchParams h) = None ->
  Input.defaultValue (view placeholder h) = None /\
  Input.text (input (mount placeholder h)) = "".
Proof.
  intros Hq. unfold mount, view, Search, Input.mount. simpl.
  now rewrite Hq.
Qed.

Lemma input_empty_without_query_witness :
  let h := Router.mkHistory "/dashboard/invoices?page=2" [] in
  Input.defaultValue (view "Search invoices..." h) = None /\
  Input.text (input (mount "Search invoices..." h)) = "".
Proof.
  intros h. apply (input_empty_without_query "Search invoices..." h).
  reflexivity.
Defined.

(** ** Debouncing *)

Section DebounceFacts.

Lemma run_app events1 events2 w :
  run (events1 ++ events2) w = run events2 (run events1 w).
Proof. unfold run. apply fold_left_app. Qed.

Lemma clock_fire now w : clock (fire now w) = now.
Proof.
  unfold fire. destruct (Debounce.expire now (timer w)) as [[[due term]|] t];
    reflexivity.
Qed.

(** Each keystroke starts the window again, from the time it is typed. *)
Lemma keystroke_resets w delay rawText :
  timer (step w (Keystroke delay rawText))
    = Debounce.Pending (clock w + delay + wait) rawText /\
  clock (step w (Keystroke delay rawText)) = (clock w + delay)%N.
Proof.
  simpl. unfold onInputChange, Debounce.call, elapse. simpl.
  now rewrite clock_fire.
Qed.

(** Keystrokes that follow each other within the window run nothing. *)
Lemma typing_keeps_pending (rest : list (N * string)) :
  forall w s,
    Forall (fun p => (fst p < wait)%N) rest ->
    timer w = Debounce.Pending (clock w + wait) s ->
    let w' := run (keystrokes rest) w in
    timer w' = Debounce.Pending (clock w' + wait)
                                (last_typed (keystrokes rest) s) /\
    log w' = log w /\ history w' = history w.
Proof.
  induction rest as [|[d s'] rest IH]; intros w s Hgaps Ht.
  - simpl. auto.
  - inversion Hgaps as [|p l Hd Hrest]; subst. simpl in Hd.
    assert (Hstep : step w (Keystroke d s')
                    = mkWorld (clock w + d) (placeholder w) (history w)
                        (Debounce.Pending (clock w + d + wait) s')
                        (Input.edit s' (input w)) (log w)).
    { simpl. unfold elapse.
      rewrite (fire_early (clock w + d) w (clock w + wait) s Ht) by lia.
      reflexivity. }
    change (run (keystrokes ((d, s') :: rest)) w)
      with (run (keystrokes rest) (step w (Keystroke d s'))).
    change (last_typed (keystrokes ((d, s') :: rest)) s)
      with (last_typed (keystrokes rest) s').
    rewrite Hstep.
    exact (IH (mkWorld (clock w + d) (placeholder w) (history w)
                 (Debounce.Pending (clock w + d + wait) s')
                 (Input.edit s' (input w)) (log w))
              s' Hrest eq_refl).
Qed.

End DebounceFacts.

(** C3: from an idle timer, a keystroke followed by any number of
    keystrokes that each come less than 300 time units after the one
    before runs nothing while they are typed and leaves the timer due 300
    units after the last of them; nothing runs while less than 300 units
    have passed since, and once 300 units have passed the wrapped function
    has run exactly once, at that deadline, with the text typed last. *)
Theorem debounce_coalesces (w : World) (d0 : N) (s0 : string)
    (rest : list (N * string)) (d : N) :
  timer w = Debounce.Idle ->
  Forall (fun p => (fst p < wait)%N) rest ->
  let w' := run (Keystroke d0 s0 :: keystrokes rest) w in
  let final := last_typed (keystrokes rest) s0 in
  wait = 300%N /\
  timer w' = Debounce.Pending (clock w' + wait) final /\
  log w' = log w /\
  ((d < wait)%N -> log (elapse d w') = log w) /\
  ((wait <= d)%N ->
     timer (elapse d w') = Debounce.Idle /\
     log (elapse d w')
     = log w ++ [mkInvocation (clock w' + wait) final
                   (handleSearch (Router.usePathname (history w))
                                 (queryState w) final)]).
Proof.
  intros Hidle Hgaps w' final.
  set (w0 := step w (Keystroke d0 s0)).
  assert (H0 : timer w0 = Debounce.Pending (clock w0 + wait) s0
               /\ log w0 = log w /\ history w0 = history w).
  { unfold w0. simpl. unfold elapse. rewrite (fire_idle _ _ Hidle).
    repeat split. }
  destruct H0 as (Ht0 & Hl0 & Hh0).
  destruct (typing_keeps_pending rest w0 s0 Hgaps Ht0) as (Ht & Hl & Hh).
  change (run (keystrokes rest) w0) with w' in Ht, Hl, Hh.
  fold final in Ht.
  split; [reflexivity|].
  split; [exact Ht|].
  split; [congruence|].
  split.
  - intros Hd. unfold elapse.
    rewrite (fire_early _ _ _ _ Ht) by lia. simpl. congruence.
  - intros Hd. unfold elapse.
    rewrite (fire_due _ _ _ _ Ht) by lia. simpl.
    split; [reflexivity|].
    unfold queryState. now rewrite Hh, Hh0, Hl, Hl0.
Qed.

Lemma debounce_coalesces_witness :
  let w := mount "Search invoices..." (Router.mkHistory "/dashboard/invoices" []) in
  let w' := run [Keystroke 1000 "l"; Keystroke 120 "le"; Keystroke 299 "lee"] w in
  log (elapse 299 w') = [] /\
  log (elapse 300 w')
  = [mkInvocation 1719 "lee"
       [ConsoleLog "Searching... lee";
        RouterReplace "/dashboard/invoices?page=1&query=lee"]].
Proof.
  intros w w'.
  assert (Hgaps : Forall (fun p : N * string => (fst p < wait)%N)
                         [(120%N, "le"); (299%N, "lee")]).
  { repeat constructor. }
  split.
  - destruct (debounce_coalesces w 1000 "l" [(120%N, "le"); (299%N, "lee")]
                299 eq_refl Hgaps) as (_ & _ & _ & Hearly & _).
    apply Hearly. reflexivity.
  - destruct (debounce_coalesces w 1000 "l" [(120%N, "le"); (299%N, "lee")]
                300 eq_refl Hgaps) as (_ & _ & _ & _ & Hdue).
    apply Hdue. vm_compute. discriminate.
Defined.

(** In any run of the mounted component, two runs of the wrapped function
    are at least the window apart. *)
Section Spacing.

Lemma spaced_snoc gap l x :
  spaced gap l -> Forall (fun t => (t + gap <= x)%N) l ->
  spaced gap (l ++ [x]).
Proof.
  induction l as [|t l IH]; simpl.
  - intros _ _. split; [constructor | exact I].
  - intros [Ht Hl] Hx. inversion Hx as [|? ? Htx Hlx]; subst.
    split.
    + apply Forall_app. split; [exact Ht | now constructor].
    + now apply IH.
Qed.

Lemma settled_elapse delay w : settled w -> settled (elapse delay w).
Proof.
  intros (Hs & Hc & Ht). unfold elapse.
  destruct (timer w) as [|deadline term] eqn:E.
  - rewrite (fire_idle _ _ E). unfold settled, commit_times. simpl.
    repeat split; [exact Hs|].
    eapply Forall_impl; [|exact Hc]. simpl. intros; lia.
  - destruct Ht as [Hd Hw].
    destruct (N.le_gt_cases deadline (clock w + delay)) as [Hle|Hgt].
    + rewrite (fire_due _ _ _ _ E Hle). unfold settled, commit_times. simpl.
      rewrite map_app. simpl. repeat split.
      * now apply spaced_snoc.
      * apply Forall_app. split.
        -- eapply Forall_impl; [|exact Hc]. simpl. intros; lia.
        -- now constructor.
    + rewrite (fire_early _ _ _ _ E Hgt). unfold settled, commit_times.
      simpl. repeat split; [exact Hs| |exact Hd|lia].
      eapply Forall_impl; [|exact Hc]. simpl. intros; lia.
Qed.

Lemma settled_step w e : settled w -> settled (step w e).
Proof.
  intros H. destruct e as [delay rawText|delay href|delay]; simpl.
  - apply (settled_elapse delay) in H. destruct H as (Hs & Hc & _).
    unfold settled, commit_times in *. simpl. repeat split; try assumption.
    + eapply Forall_impl; [|exact Hc]. unfold Debounce.call. simpl.
      intros; lia.
    + lia.
  - apply (settled_elapse delay) in H. exact H.
  - now apply settled_elapse.
Qed.

Lemma commits_spaced events placeholder h :
  spaced wait (commit_times (run events (mount placeholder h))).
Proof.
  assert (H : settled (mount placeholder h)).
  { unfold settled, commit_times. simpl. repeat split; constructor. }
  revert H. generalize (mount placeholder h). unfold run.
  induction events as [|e events IH]; intros w H; simpl.
  - apply H.
  - apply IH. now apply settled_step.
Qed.

End Spacing.

(** ** Typing, pausing, clearing *)

Section Scenario.

Lemma commit_absorbs (searchParams : QueryState) term :
  searchParams = [] \/ (exists t, searchParams = commit [] t) ->
  commit searchParams term = commit [] term.
Proof.
  intros [->|[t ->]]; [reflexivity|].
  destruct t, term; reflexivity.
Qed.

Lemma from_empty_fire now w : from_empty w -> from_empty (fire now w).
Proof.
  intros H. unfold from_empty. rewrite queryState_fire.
  destruct (timer w) as [|deadline term]; [exact H|].
  destruct (deadline <=? now)%N; [|exact H].
  right. exists term. now apply commit_absorbs.
Qed.

Lemma from_empty_typing (l : list (N * string)) w :
  from_empty w -> from_empty (run (keystrokes l) w).
Proof.
  revert w. induction l as [|[d s] l IH]; intros w H; [exact H|].
  apply IH. simpl. apply (from_empty_fire (clock w + d)) in H. exact H.
Qed.

(** Whatever was typed on the way, once the text is [s] and the window
    has passed, the parameters are those of one commit of [s] on the
    empty QueryState. *)
Lemma typing_session (l : list (N * string)) d s d' w :
  from_empty w -> (wait <= d')%N ->
  let w' := run (keystrokes (l ++ [(d, s)]) ++ [Pause d']) w in
  queryState w' = commit [] s /\ from_empty w'.
Proof.
  intros H Hd'. unfold keystrokes. rewrite map_app, !run_app.
  fold (keystrokes l).
  apply (from_empty_typing l) in H. revert H.
  generalize (run (keystrokes l) w). clear w. intros w H.
  simpl.
  destruct (keystroke_resets w d s) as [Ht Hc].
  change (step w (Keystroke d s)) with (onInputChange s (elapse d w))
    in Ht, Hc.
  assert (Hq : queryState (elapse d' (onInputChange s (elapse d w)))
               = commit [] s).
  { unfold elapse at 1. rewrite queryState_fire, Ht, Hc.
    rewrite (proj2 (N.leb_le _ _)) by lia.
    apply commit_absorbs. apply (from_empty_fire (clock w + d)) in H.
    exact H. }
  split; [exact Hq|]. right. exists s. exact Hq.
Qed.

End Scenario.

(** C6: from an address without parameters, typing up to the text ["lee"]
    and pausing for at least the window leaves the parameters
    [page=1, query=lee]; then editing down to the empty text and pausing
    again leaves [page=1] alone, with no [query] key. *)
Theorem type_then_clear (placeholder : string) (h : Router.History)
    (typing clearing : list (N * string)) (d1 d2 d3 d4 : N) :
  Router.useSearchParams h = [] ->
  (wait <= d2)%N -> (wait <= d4)%N ->
  let w1 := run (keystrokes (typing ++ [(d1, "lee")]) ++ [Pause d2])
                (mount placeholder h) in
  let w2 := run (keystrokes (clearing ++ [(d3, "")]) ++ [Pause d4]) w1 in
  queryState w1 = [("page", "1"); ("query", "lee")] /\
  queryState w2 = [("page", "1")] /\
  URLSearchParams.has "query" (queryState w2) = false.
Proof.
  intros Hh Hd2 Hd4 w1 w2.
  destruct (typing_session typing d1 "lee" d2 (mount placeholder h))
    as [Hq1 Hf1]; [left; exact Hh | exact Hd2 |].
  fold w1 in Hq1, Hf1.
  destruct (typing_session clearing d3 "" d4 w1 Hf1 Hd4) as [Hq2 _].
  fold w2 in Hq2.
  rewrite Hq1, Hq2. repeat split.
Qed.

Lemma type_then_clear_witness :
  let w1 := run [Keystroke 10 "l"; Keystroke 80 "le"; Keystroke 90 "lee";
                 Pause 300]
                (mount "Search invoices..."
                       (Router.mkHistory "/dashboard/invoices" [])) in
  let w2 := run [Keystroke 500 "le"; Keystroke 350 "l"; Keystroke 40 "";
                 Pause 300] w1 in
  queryState w1 = [("page", "1"); ("query", "lee")] /\
  queryState w2 = [("page", "1")] /\
  URLSearchParams.has "query" (queryState w2) = false.
Proof.
  apply (type_then_clear "Search invoices..."
           (Router.mkHistory "/dashboard/invoices" [])
           [(10%N, "l"); (80%N, "le")] [(500%N, "le"); (350%N, "l")]
           90 300 40 300);
    first [reflexivity | vm_compute; discriminate].
Defined.

(** * Further properties of the component *)

(** ** The address of a commit *)

Section AddressFacts.

Import UrlEncoded.

Lemma hrefs_handleSearch pathname (searchParams : QueryState) term :
  hrefs (handleSearch pathname searchParams term)
  = [(pathname ++ "?" ++ toString (commit searchParams term))%string].
Proof. reflexivity. Qed.

Lemma query_byte_encoded c : encoded_byte c = true -> query_byte c = true.
Proof. unfold query_byte. now intros ->. Qed.

Lemma serialize_tuple_bytes p : all_bytes query_byte (serialize_tuple p) = true.
Proof.
  unfold serialize_tuple. rewrite all_bytes_app. simpl.
  rewrite !(all_bytes_weaken encoded_byte query_byte)
    by (try apply query_byte_encoded; apply percent_encode_encoded).
  reflexivity.
Qed.

Lemma toString_bytes (l : URLSearchParams.t) :
  all_bytes query_byte (toString l) = true.
Proof.
  unfold toString. induction l as [|p l IH]; [reflexivity|].
  simpl. destruct (map serialize_tuple l) as [|q m] eqn:E.
  - apply serialize_tuple_bytes.
  - rewrite all_bytes_app, serialize_tuple_bytes. simpl. exact IH.
Qed.

End AddressFacts.

(** X1: the address a commit passes to the router splits back into the
    path it was built on and exactly the parameters the commit built,
    whatever bytes the term and the earlier names and values hold. *)
Theorem address_round_trip (pathname : string) (searchParams : QueryState)
    (term : string) :
  is_path pathname = true ->
  map (fun a => (Router.path a, UrlEncoded.parse (Router.query a)))
      (hrefs (handleSearch pathname searchParams term))
  = [(pathname, commit searchParams term)].
Proof.
  intros Hp. rewrite hrefs_handleSearch. cbn [map].
  now rewrite path_of_address, query_of_address, parse_toString.
Qed.

Lemma address_round_trip_witness :
  map (fun a => (Router.path a, UrlEncoded.parse (Router.query a)))
      (hrefs (handleSearch "/dashboard/invoices"
                           [("sort", "a&b"); ("page", "4")]
                           "x&page=9#top? +%41"))
  = [("/dashboard/invoices",
      [("sort", "a&b"); ("page", "1"); ("query", "x&page=9#top? +%41")])].
Proof.
  apply (address_round_trip "/dashboard/invoices"
           [("sort", "a&b"); ("page", "4")] "x&page=9#top? +%41").
  reflexivity.
Defined.

(** X3: after the [?], the address of a commit holds only ASCII letters
    and digits, [*], [-], [.], [_], [+], [%], [=] and [&]: no raw space,
    [#], [?] or byte above 127 is written. *)
Theorem address_query_bytes (pathname : string) (searchParams : QueryState)
    (term : string) :
  exists q,
    hrefs (handleSearch pathname searchParams term)
      = [(pathname ++ String "?" q)%string] /\
    all_bytes query_byte q = true /\
    all_bytes (fun c => (N_of_ascii c <? 128)%N
                        && differs " " c && differs "#" c && differs "?" c)
              q = true.
Proof.
  exists (UrlEncoded.toString (commit searchParams term)).
  split; [reflexivity|]. split; [apply toString_bytes|].
  apply all_bytes_weaken with (f := query_byte); [|apply toString_bytes].
  intros c. destruct c as [[] [] [] [] [] [] [] []]; cbv; auto.
Qed.

(** ** Commits in succession *)

Section SuccessionFacts.

Import URLSearchParams.

Lemma delete_delete name (l : t) : delete name (delete name l) = delete name l.
Proof. apply delete_absent, getAll_delete_same. Qed.

Lemma set_set name v1 v2 (l : t) :
  set name v2 (set name v1 l) = set name v2 l.
Proof.
  induction l as [|[n0 v0] l IH]; simpl.
  - now rewrite String.eqb_refl.
  - destruct (String.eqb n0 name) eqn:E; simpl; rewrite E.
    + now rewrite delete_delete.
    + now rewrite IH.
Qed.

Lemma delete_cons name n v (l : t) :
  delete name ((n, v) :: l)
  = if String.eqb n name then delete name l else (n, v) :: delete name l.
Proof.
  unfold delete, named. simpl. now destruct (String.eqb n name).
Qed.

Lemma delete_set name v (l : t) : delete name (set name v l) = delete name l.
Proof.
  induction l as [|[n0 v0] l IH].
  - cbn [set]. now rewrite delete_cons, String.eqb_refl.
  - cbn [set]. destruct (String.eqb n0 name) eqn:E; rewrite !delete_cons, E.
    + apply delete_delete.
    + now rewrite IH.
Qed.

Lemma commit_after_commit (searchParams : QueryState) t1 t2 :
  truthy t1 = true ->
  commit (commit searchParams t1) t2 = commit searchParams t2.
Proof.
  intros H1. rewrite (commit_unfold (commit searchParams t1)).
  rewrite (set_present "page" "1") by apply getAll_commit_page.
  rewrite !commit_unfold, H1.
  destruct (truthy t2).
  - apply set_set.
  - apply delete_set.
Qed.

Lemma getAll_commit_twice (searchParams : QueryState) t1 t2 name :
  getAll name (commit (commit searchParams t1) t2)
  = getAll name (commit searchParams t2).
Proof.
  destruct (String.eqb_spec name "page") as [->|Hp].
  { now rewrite !getAll_commit_page. }
  destruct (String.eqb_spec name "query") as [->|Hq].
  { now rewrite !getAll_commit_query. }
  unfold getAll. f_equal.
  rewrite !filter_commit; try reflexivity; intros p; now apply named_other.
Qed.

End SuccessionFacts.

(** X4: of two commits in succession only the second counts: every name
    has the values it would have had, had the second term been committed
    alone; and when the first term is not empty the two parameter lists
    are equal, order included. *)
Theorem commit_last_wins (searchParams : QueryState) (t1 t2 : string) :
  (forall name,
     URLSearchParams.getAll name (commit (commit searchParams t1) t2)
     = URLSearchParams.getAll name (commit searchParams t2)) /\
  (t1 <> "" -> commit (commit searchParams t1) t2 = commit searchParams t2).
Proof.
  split.
  - intros name. apply getAll_commit_twice.
  - intros H1. apply commit_after_commit. destruct t1; [congruence|reflexivity].
Qed.

Lemma commit_last_wins_witness :
  commit (commit [("query", "a"); ("sort", "asc"); ("page", "5")] "le") "lee"
  = commit [("query", "a"); ("sort", "asc"); ("page", "5")] "lee" /\
  URLSearchParams.getAll "query"
    (commit (commit [("query", "a"); ("sort", "asc"); ("page", "5")] "") "lee")
  = ["lee"].
Proof.
  split.
  - apply (commit_last_wins [("query", "a"); ("sort", "asc"); ("page", "5")]
             "le" "lee").
    discriminate.
  - apply (commit_last_wins [("query", "a"); ("sort", "asc"); ("page", "5")]
             "" "lee").
Defined.

(** ** What runs, and when *)

Section RunFacts.

Lemma run_snoc events e w : run (events ++ [e]) w = step (run events w) e.
Proof. now rewrite run_app. Qed.

(** The three things a timer check can do. *)
Lemma fire_cases now w :
  (timer (fire now w) = timer w /\ log (fire now w) = log w /\
   history (fire now w) = history w) \/
  (exists deadline term,
     timer w = Debounce.Pending deadline term /\
     timer (fire now w) = Debounce.Idle /\
     log (fire now w)
       = log w ++ [mkInvocation deadline term
                     (handleSearch (Router.usePathname (history w))
                                   (queryState w) term)] /\
     history (fire now w)
       = Router.replace
           (Router.usePathname (history w) ++ "?"
            ++ UrlEncoded.toString (commit (queryState w) term))%string
           (history w)).
Proof.
  destruct (timer w) as [|deadline term] eqn:E.
  - left. rewrite (fire_idle _ _ E). simpl. auto.
  - destruct (N.le_gt_cases deadline now) as [Hle|Hgt].
    + right. exists deadline, term.
      rewrite (fire_due _ _ _ _ E Hle). simpl. auto.
    + left. rewrite (fire_early _ _ _ _ E Hgt). simpl. auto.
Qed.

Lemma typed_texts_snoc events e :
  typed_texts (events ++ [e])
  = typed_texts events ++ match e with
                          | Keystroke _ rawText => [rawText]
                          | _ => []
                          end.
Proof.
  unfold typed_texts. rewrite flat_map_app. simpl. now rewrite app_nil_r.
Qed.

Lemma typed_fire now w (typed : list string) :
  incl (map term_of (log w)) typed ->
  (forall deadline term,
     timer w = Debounce.Pending deadline term -> In term typed) ->
  (length (log w) + waiting (timer w) <= length typed)%nat ->
  incl (map term_of (log (fire now w))) typed /\
  (forall deadline term,
     timer (fire now w) = Debounce.Pending deadline term -> In term typed) /\
  (length (log (fire now w)) + waiting (timer (fire now w))
   <= length typed)%nat.
Proof.
  intros Hl Hp Hn.
  destruct (fire_cases now w) as [(Ht & Hg & _)|(dl & tm & Ht & Hi & Hg & _)].
  - rewrite Ht, Hg. auto.
  - rewrite Hi, Hg, map_app, length_app. simpl.
    rewrite Ht in Hn. simpl in Hn.
    split; [|split].
    + apply incl_app; [exact Hl|].
      intros x [<-|[]]. exact (Hp dl tm Ht).
    + discriminate.
    + lia.
Qed.

Lemma typed_invariant events placeholder h :
  let w := run events (mount placeholder h) in
  incl (map term_of (log w)) (typed_texts events) /\
  (forall deadline term,
     timer w = Debounce.Pending deadline term -> In term (typed_texts events)) /\
  (length (log w) + waiting (timer w) <= length (typed_texts events))%nat.
Proof.
  induction events as [|e events IH] using rev_ind.
  - simpl. repeat split; [intros x [] | discriminate | lia].
  - cbv zeta in *. rewrite run_snoc, typed_texts_snoc.
    set (w := run events (mount placeholder h)) in *.
    destruct IH as (Hl & Hp & Hn).
    destruct e as [d s|d href|d]; cbn [step].
    + destruct (typed_fire (clock w + d) w (typed_texts events) Hl Hp Hn)
        as (Hl' & _ & Hn').
      fold (elapse d w) in Hl', Hn'.
      cbn [onInputChange log timer]. unfold Debounce.call. cbn [waiting].
      rewrite length_app. simpl. split; [|split].
      * apply incl_appl. exact Hl'.
      * intros dl tm H. injection H as _ <-. apply in_or_app. right. now left.
      * destruct (timer (elapse d w)); simpl in Hn'; lia.
    + destruct (typed_fire (clock w + d) w (typed_texts events) Hl Hp Hn)
        as (Hl' & Hp' & Hn').
      fold (elapse d w) in Hl', Hp', Hn'.
      cbn [navigate log timer]. rewrite app_nil_r. auto.
    + rewrite app_nil_r. unfold elapse. now apply typed_fire.
Qed.

Lemma spaced_nth gap (l : list N) :
  spaced gap l ->
  forall i j ti tj,
    (i < j)%nat -> nth_error l i = Some ti -> nth_error l j = Some tj ->
    (ti + gap <= tj)%N.
Proof.
  induction l as [|t l IH]; intros Hs i j ti tj Hij Hi Hj.
  - destruct i; discriminate.
  - destruct Hs as [Ht Hl]. destruct j as [|j]; [lia|]. simpl in Hj.
    destruct i as [|i]; simpl in Hi.
    + injection Hi as <-. apply nth_error_In in Hj.
      rewrite Forall_forall in Ht. now apply Ht.
    + apply (IH Hl i j); [lia|assumption|assumption].
Qed.

Lemma back_fire now w :
  Router.back (history (fire now w)) = Router.back (history w).
Proof.
  destruct (fire_cases now w) as [(_ & _ & Hh)|(dl & tm & _ & _ & _ & Hh)];
    now rewrite Hh.
Qed.

Lemma pathname_fire now w :
  Router.usePathname (history (fire now w)) = Router.usePathname (history w).
Proof.
  destruct (fire_cases now w) as [(_ & _ & Hh)|(dl & tm & _ & _ & _ & Hh)];
    rewrite Hh; [reflexivity|apply replace_pathname].
Qed.

End RunFacts.

(** X7: the component commits only what was typed: in any run from mount,
    the term of every run of the wrapped function is the text of one of
    the keystrokes, a call still waiting counts as one more, and there are
    never more runs than keystrokes (none at all without a keystroke). *)
Theorem commits_were_typed (events : list Event) (placeholder : string)
    (h : Router.History) :
  let w := run events (mount placeholder h) in
  (forall inv, In inv (log w) -> In (term_of inv) (typed_texts events)) /\
  (length (log w) + waiting (timer w) <= length (typed_texts events))%nat.
Proof.
  intros w. destruct (typed_invariant events placeholder h) as (Hl & _ & Hn).
  fold w in Hl, Hn. split; [|exact Hn].
  intros inv Hin. apply Hl, in_map, Hin.
Qed.

Lemma commits_were_typed_witness :
  let events := [Keystroke 0 "a"; Keystroke 100 "ab"; Pause 300;
                 Navigate 5 "/dashboard"; Keystroke 1 "abc"] in
  let w := run events (mount "Search..." (Router.mkHistory "/inv" [])) in
  map term_of (log w) = ["ab"] /\
  timer w = Debounce.Pending 706 "abc" /\
  In "ab" (typed_texts events).
Proof.
  intros events w. split; [reflexivity|]. split; [reflexivity|].
  apply (proj1 (commits_were_typed events "Search..." (Router.mkHistory "/inv" []))
           (mkInvocation 400 "ab"
              [ConsoleLog "Searching... ab";
               RouterReplace "/inv?page=1&query=ab"])).
  left. reflexivity.
Defined.

(** X8: in any run from mount, two runs of the wrapped function are at
    least the window of 300 apart, whatever the keystrokes, pauses and
    navigations in between. *)
Theorem commits_window_apart (events : list Event) (placeholder : string)
    (h : Router.History) (i j : nat) (ti tj : N) :
  (i < j)%nat ->
  nth_error (commit_times (run events (mount placeholder h))) i = Some ti ->
  nth_error (commit_times (run events (mount placeholder h))) j = Some tj ->
  (ti + 300 <= tj)%N.
Proof.
  intros Hij Hi Hj.
  exact (spaced_nth wait _ (commits_spaced events placeholder h)
           i j ti tj Hij Hi Hj).
Qed.

Lemma commits_window_apart_witness :
  let events := [Keystroke 0 "a"; Keystroke 300 "ab"; Keystroke 299 "abc";
                 Navigate 10 "/dashboard"; Pause 1000] in
  commit_times (run events (mount "Search..." (Router.mkHistory "/inv" [])))
    = [300; 899]%N /\
  (300 + 300 <= 899)%N.
Proof.
  intros events. split; [reflexivity|].
  apply (commits_window_apart events "Search..." (Router.mkHistory "/inv" [])
           0 1 300 899); [lia | reflexivity | reflexivity].
Defined.

(** X9: the component's own commits never add a history entry and never
    change the path: after any run the history has its first entries plus
    one for each navigation from outside, and without such navigations the
    entries behind the current one and the path are as at the start. *)
Theorem commits_keep_history (events : list Event) (w : World) :
  Router.entries (history (run events w))
    = (Router.entries (history w) + navigations events)%nat /\
  (navigations events = 0%nat ->
     Router.back (history (run events w)) = Router.back (history w) /\
     Router.usePathname (history (run events w))
       = Router.usePathname (history w)).
Proof.
  revert w. induction events as [|e events IH]; intros w.
  - unfold navigations, Router.entries. simpl. split; [lia|auto].
  - change (run (e :: events) w) with (run events (step w e)).
    destruct (IH (step w e)) as [He Hn].
    destruct e as [d s|d href|d]; unfold navigations in *; cbn [filter length].
    + assert (Hb : Router.back (history (step w (Keystroke d s)))
                   = Router.back (history w)) by apply back_fire.
      assert (Hp : Router.usePathname (history (step w (Keystroke d s)))
                   = Router.usePathname (history w)) by apply pathname_fire.
      split.
      * rewrite He. unfold Router.entries. now rewrite Hb.
      * intros H0. destruct (Hn H0) as [Hb' Hp']. split; congruence.
    + split; [|discriminate].
      rewrite He. unfold Router.entries. cbn [step navigate history Router.push
        Router.back length]. unfold elapse. rewrite back_fire. lia.
    + assert (Hb : Router.back (history (step w (Pause d)))
                   = Router.back (history w)) by apply back_fire.
      assert (Hp : Router.usePathname (history (step w (Pause d)))
                   = Router.usePathname (history w)) by apply pathname_fire.
      split.
      * rewrite He. unfold Router.entries. now rewrite Hb.
      * intros H0. destruct (Hn H0) as [Hb' Hp']. split; congruence.
Qed.

Lemma commits_keep_history_witness :
  let w := mount "Search..."
             (Router.mkHistory "/dashboard/invoices?page=2" ["/dashboard"; "/"]) in
  let events := [Keystroke 0 "l"; Pause 300; Keystroke 50 "lee"; Pause 700;
                 Keystroke 10 ""; Pause 300] in
  length (log (run events w)) = 3%nat /\
  Router.back (history (run events w)) = ["/dashboard"; "/"] /\
  Router.usePathname (history (run events w)) = "/dashboard/invoices".
Proof.
  intros w events. split; [reflexivity|].
  apply (commits_keep_history events w). reflexivity.
Defined.

(** ** The placeholder *)

Section PlaceholderFacts.

(** What a render of [Search] does to the control. *)
Lemma render_view p h e :
  Input.text (Input.render (view p h) e)
  = (if Input.dirty e then Input.text e
     else Input.or_empty (URLSearchParams.get "query" (Router.useSearchParams h)))
  /\ Input.dirty (Input.render (view p h) e) = Input.dirty e.
Proof.
  unfold Input.render, view, Search. cbn.
  destruct (URLSearchParams.get "query" (Router.useSearchParams h)); auto.
Qed.

Lemma same_render p1 p2 h e1 e2 :
  Input.text e1 = Input.text e2 -> Input.dirty e1 = Input.dirty e2 ->
  Input.text (Input.render (view p1 h) e1)
  = Input.text (Input.render (view p2 h) e2) /\
  Input.dirty (Input.render (view p1 h) e1)
  = Input.dirty (Input.render (view p2 h) e2).
Proof.
  intros Hx Hd.
  destruct (render_view p1 h e1) as [-> ->].
  destruct (render_view p2 h e2) as [-> ->].
  now rewrite Hx, Hd.
Qed.

Lemma same_fire now w1 w2 :
  same_behaviour w1 w2 -> same_behaviour (fire now w1) (fire now w2).
Proof.
  intros (Hc & Hh & Ht & Hl & Hx & Hd). unfold same_behaviour, fire.
  rewrite Ht, Hh, Hl.
  destruct (Debounce.expire now (timer w2)) as [[[due term]|] t];
    cbn [clock history timer log input].
  - repeat split. all: now apply same_render.
  - repeat split; assumption.
Qed.

Lemma same_step w1 w2 e :
  same_behaviour w1 w2 -> same_behaviour (step w1 e) (step w2 e).
Proof.
  intros H. pose proof H as (Hc & _).
  destruct e as [d s|d href|d]; cbn [step]; unfold elapse; rewrite Hc;
    apply (same_fire (clock w2 + d)) in H;
    destruct H as (Hc' & Hh' & Ht' & Hl' & Hx' & Hd').
  - unfold same_behaviour, onInputChange. simpl. rewrite Hc'.
    repeat split; assumption.
  - unfold same_behaviour, navigate. cbn [clock history timer log input].
    rewrite Hh'. repeat split; try assumption. all: now apply same_render.
  - repeat split; assumption.
Qed.

Lemma same_run events w1 w2 :
  same_behaviour w1 w2 -> same_behaviour (run events w1) (run events w2).
Proof.
  revert w1 w2. unfold run.
  induction events as [|e events IH]; intros w1 w2 H; [exact H|].
  simpl. apply IH. now apply same_step.
Qed.

Lemma placeholder_step w e :
  Input.placeholder (Input.props (input w)) = placeholder w ->
  placeholder (step w e) = placeholder w /\
  Input.placeholder (Input.props (input (step w e))) = placeholder w.
Proof.
  intros H.
  assert (Hf : forall now,
             placeholder (fire now w) = placeholder w /\
             Input.placeholder (Input.props (input (fire now w)))
             = placeholder w).
  { intros now. unfold fire.
    destruct (Debounce.expire now (timer w)) as [[[due term]|] t]; simpl;
      auto. }
  destruct e as [d s|d href|d]; cbn [step]; unfold elapse;
    destruct (Hf (clock w + d)%N) as [Hp Hi]; simpl; auto.
Qed.

Lemma placeholder_run events w :
  Input.placeholder (Input.props (input w)) = placeholder w ->
  Input.placeholder (Input.props (input (run events w))) = placeholder w.
Proof.
  revert w. unfold run.
  induction events as [|e events IH]; intros w H; [exact H|].
  simpl. destruct (placeholder_step w e H) as [Hp Hi].
  rewrite <- Hp. apply IH. now rewrite Hp.
Qed.

End PlaceholderFacts.

(** X10: the placeholder is for display only: two components mounted on
    the same history with different placeholders and given the same
    events end with the same clock, history, timer, runs of the wrapped
    function and displayed text, and each shows its own placeholder. *)
Theorem placeholder_display_only (events : list Event) (p1 p2 : string)
    (h : Router.History) :
  same_behaviour (run events (mount p1 h)) (run events (mount p2 h)) /\
  Input.placeholder (Input.props (input (run events (mount p1 h)))) = p1 /\
  Input.placeholder (Input.props (input (run events (mount p2 h)))) = p2.
Proof.
  split; [|split].
  - apply same_run. unfold same_behaviour. repeat split.
  - now rewrite placeholder_run.
  - now rewrite placeholder_run.
Qed.

(** ** The shape of the committed parameters *)

Section ShapeFacts.

Import URLSearchParams.

Lemma others_page p : named "page" p = true -> others p = false.
Proof. unfold others. now intros ->. Qed.

Lemma others_query p : named "query" p = true -> others p = false.
Proof. unfold others. intros ->. apply andb_false_r. Qed.

(** A parameter list counts its [page] tuples, its [query] tuples and the
    others. *)
Lemma length_three_ways (l : t) :
  length l = (length (getAll "page" l) + length (getAll "query" l)
              + length (filter others l))%nat.
Proof.
  unfold getAll. rewrite !length_map.
  induction l as [|[n v] l IH]; [reflexivity|].
  cbn [filter length].
  destruct (named "page" (n, v)) eqn:Ep.
  - rewrite (others_page _ Ep).
    rewrite (named_other "page" "query" (n, v)) by (discriminate || exact Ep).
    cbn [length]. lia.
  - destruct (named "query" (n, v)) eqn:Eq.
    + rewrite (others_query _ Eq). cbn [length]. lia.
    + assert (Ho : others (n, v) = true) by (unfold others; now rewrite Ep, Eq).
      rewrite Ho. cbn [length]. lia.
Qed.

End ShapeFacts.

(** X11: a commit writes nothing else: the tuples named neither [page]
    nor [query] come out as they were, in the same order, and besides
    them the result holds one [page] tuple and, for a non-empty term, one
    [query] tuple, however many of either there were before. *)
Theorem commit_shape (searchParams : QueryState) (term : string) :
  filter others (commit searchParams term) = filter others searchParams /\
  length (commit searchParams term)
  = (length (filter others searchParams) + 1
     + (if truthy term then 1 else 0))%nat.
Proof.
  assert (H : filter others (commit searchParams term)
              = filter others searchParams).
  { apply filter_commit; [apply others_page | apply others_query]. }
  split; [exact H|].
  rewrite length_three_ways, H, getAll_commit_page, getAll_commit_query.
  destruct (truthy term); simpl; lia.
Qed.

(** ** The displayed text over time *)

Section TextFacts.





End TextFacts.




(** ** The term as a JavaScript string *)

Section ScriptFacts.

Import ScriptParams.

Lemma unit_eqb_refl u : JS.unit_eqb u u = true.
Proof. unfold JS.unit_eqb. now rewrite !Ascii.eqb_refl. Qed.

Lemma js_eqb_refl s : JS.eqb s s = true.
Proof.
  induction s as [|u s IH]; [reflexivity|].
  simpl. now rewrite unit_eqb_refl, IH.
Qed.

Lemma first_put name value (l : t) : first name (put name value l) = Some value.
Proof.
  induction l as [|[n v] l IH]; simpl.
  - now rewrite js_eqb_refl.
  - destruct (JS.eqb n name) eqn:E; simpl; now rewrite E.
Qed.

Lemma filter_without name (l : t) : filter (named name) (without name l) = [].
Proof.
  unfold without. induction l as [|p l IH]; [reflexivity|].
  simpl. destruct (named name p) eqn:E; simpl; [exact IH|].
  now rewrite E.
Qed.

Lemma filter_put name value (l : t) :
  map snd (filter (named name) (put name value l)) = [value].
Proof.
  induction l as [|[n v] l IH]; simpl.
  - unfold named. simpl. now rewrite js_eqb_refl.
  - destruct (JS.eqb n name) eqn:E; simpl; unfold named at 1; simpl; rewrite E.
    + simpl. now rewrite filter_without.
    + exact IH.
Qed.

Lemma first_without name (l : t) : first name (without name l) = None.
Proof.
  unfold without. induction l as [|[n v] l IH]; [reflexivity|].
  simpl. unfold named at 1. simpl.
  destruct (JS.eqb n name) eqn:E; simpl; [exact IH|].
  now rewrite E.
Qed.

Lemma existsb_without name (l : t) :
  existsb (named name) (without name l) = false.
Proof.
  unfold without. induction l as [|p l IH]; [reflexivity|].
  simpl. destruct (named name p) eqn:E; simpl; [exact IH|].
  now rewrite E.
Qed.

(** A string without lone surrogates is its own scalar value string. *)
Lemma toUSV_well_formed (n : nat) :
  forall s, (length s <= n)%nat -> JS.well_formed s = true -> JS.toUSV s = s.
Proof.
  induction n as [|n IH]; intros s Hn Hw.
  - destruct s; [reflexivity|simpl in Hn; lia].
  - destruct s as [|u s]; [reflexivity|].
    simpl in Hn, Hw |- *.
    destruct (JS.lead u).
    + destruct s as [|v s]; [discriminate|].
      apply andb_true_iff in Hw as [Hv Hs]. rewrite Hv.
      simpl in Hn. rewrite (IH s) by (assumption || lia). reflexivity.
    + apply andb_true_iff in Hw as [Hu Hs].
      apply negb_true_iff in Hu. rewrite Hu.
      rewrite (IH s) by (assumption || lia). reflexivity.
Qed.

End ScriptFacts.

(** C1, as the claim states it, fails: for the term made of the lone
    surrogate D800 the commit leaves [query] equal to U+FFFD, not to the
    term. *)
Lemma commit_query_counterexample :
  let term := [(ascii_of_N 216, ascii_of_N 0)] in
  term <> [] /\
  ScriptParams.get (JS.literal "query") (commit_script [] term)
    = Some [JS.replacement] /\
  ScriptParams.get (JS.literal "query") (commit_script [] term) <> Some term.
Proof.
  intros term. repeat split; discriminate.
Qed.

(** C1, amended: for every term and every prior QueryState, the parameters
    produced by a commit have no [query] key when the term is empty, and
    otherwise have a single [query] tuple whose value is the term with
    each surrogate that stands alone replaced by U+FFFD: the term itself
    when it has no such surrogate. *)
Theorem commit_query_script (searchParams : ScriptParams.t) (term : JS.t) :
  (term <> [] ->
     ScriptParams.get (JS.literal "query") (commit_script searchParams term)
       = Some (JS.toUSV term) /\
     ScriptParams.getAll (JS.literal "query") (commit_script searchParams term)
       = [JS.toUSV term]) /\
  (term <> [] -> JS.well_formed term = true ->
     ScriptParams.get (JS.literal "query") (commit_script searchParams term)
       = Some term) /\
  (term = [] ->
     ScriptParams.has (JS.literal "query") (commit_script searchParams term)
       = false /\
     ScriptParams.get (JS.literal "query") (commit_script searchParams term)
       = None).
Proof.
  assert (Hset : term <> [] ->
            ScriptParams.get (JS.literal "query")
              (commit_script searchParams term) = Some (JS.toUSV term) /\
            ScriptParams.getAll (JS.literal "query")
              (commit_script searchParams term) = [JS.toUSV term]).
  { intros Hterm. unfold commit_script.
    destruct term as [|u term]; [congruence|]. cbn [JS.truthy].
    unfold ScriptParams.get, ScriptParams.getAll.
    unfold ScriptParams.set at 1 3.
    split; [apply first_put | apply filter_put]. }
  split; [exact Hset|]. split.
  - intros Hterm Hw. destruct (Hset Hterm) as [Hg _].
    rewrite Hg. f_equal. now apply (toUSV_well_formed (length term)).
  - intros ->. unfold commit_script. cbn [JS.truthy].
    unfold ScriptParams.has, ScriptParams.get, ScriptParams.delete.
    split; [apply existsb_without | apply first_without].
Qed.

Lemma commit_query_script_witness :
  let lee := JS.literal "lee" in
  let old := [(JS.literal "page", JS.literal "3");
              (JS.literal "query", JS.literal "a");
              (JS.literal "query", JS.literal "b")] in
  (lee <> [] /\ JS.well_formed lee = true /\
   ScriptParams.get (JS.literal "query") (commit_script old lee) = Some lee) /\
  ScriptParams.has (JS.literal "query") (commit_script old []) = false.
Proof.
  intros lee old. split; [split; [discriminate|split; [reflexivity|]]|].
  - apply (commit_query_script old lee); [discriminate|reflexivity].
  - apply (commit_query_script old []). reflexivity.
Defined.
